(** * SpSparse / IBMisc common definitions: a shallow embedding

    This development embeds [slib/spsparse/spsparse.hpp] and
    [slib/ibmisc/ibmisc.hpp] and proves the properties their
    specification states about them.

    - C++ [double] values are IEEE-754 binary64 numbers, taken from the
      standard library's [spec_float] (signed zeros, infinities, one NaN,
      finite numbers as sign, mantissa and exponent).
    - C++ [int] values are integers in [INT_MIN, INT_MAX]; signed overflow
      is undefined behaviour and is an explicit outcome of the model.
    - [std::ostream] is the sequence of characters written so far.
    - A pointer [T const *] is the list of the elements readable from it;
      a null pointer has none. *)

From Stdlib Require Import ZArith List String Ascii Bool Lia.
From Stdlib Require Import Floats.SpecFloat.
From Stdlib Require Import Numbers.DecimalString Numbers.DecimalZ.
Import ListNotations.

Open Scope Z_scope.

(* ================================================================= *)
(** ** Machine types *)

Definition INT_MAX : Z := 2147483647.
Definition INT_MIN : Z := -2147483648.

(** [int]: a C++ [int]; well-formed values satisfy [in_int]. *)
Definition int := Z.
Definition in_int (n : Z) : Prop := INT_MIN <= n <= INT_MAX.

(** [double]: IEEE-754 binary64, [prec = 53], [emax = 1024]. *)
Definition double := spec_float.
Definition dbl_prec : Z := 53.
Definition dbl_emax : Z := 1024.

(** [static_cast<double>(n)] for an integer [n], round to nearest even. *)
Definition double_of_int (n : int) : double :=
  binary_normalize dbl_prec dbl_emax n 0 false.

(** [a + b] on doubles. *)
Definition double_add (a b : double) : double := SFadd dbl_prec dbl_emax a b.

(** [a == b] on doubles: IEEE comparison, false whenever a NaN is involved,
    true between zeros of either sign. *)
Definition double_eq (a b : double) : bool := SFeqb a b.

(** [std::isnan(x)] on a double. *)
Definition double_isnan (x : double) : bool :=
  match x with
  | S754_nan => true
  | _ => false
  end.

(** Some double literals. *)
Definition NaN : double := S754_nan.
Definition dbl_0 : double := S754_zero false.
Definition dbl_neg0 : double := S754_zero true.
Definition dbl_3 : double := Eval cbv in double_of_int 3.
Definition dbl_4 : double := Eval cbv in double_of_int 4.
Definition dbl_5 : double := Eval cbv in double_of_int 5.
Definition dbl_7 : double := Eval cbv in double_of_int 7.

(* ================================================================= *)
(** ** The numeric template parameter [NumT]

    [isnone] is a template over [NumT]; its body uses [std::isnan(n)] and
    [n == 0].  A numeric type is a type with these two operations. *)

Class NumT (T : Type) := {
  (** [std::isnan(n)] *)
  num_isnan : T -> bool;
  (** [n == 0], the literal [0] converted to [T] *)
  num_eq0 : T -> bool
}.

(** [double]: [n == 0] converts the [int] literal to [+0.0]. *)
#[global] Instance NumT_double : NumT double := {
  num_isnan := double_isnan;
  num_eq0 := fun n => double_eq n (double_of_int 0)
}.

(** [int]: [std::isnan] on an integer argument converts it to [double]
    first; [n == 0] is integer comparison. *)
#[global] Instance NumT_int : NumT int := {
  num_isnan := fun n => double_isnan (double_of_int n);
  num_eq0 := fun n => Z.eqb n 0
}.

(** [a + b] on the value type [val_type] of a container. *)
Class Additive (T : Type) := { num_add : T -> T -> T }.

#[global] Instance Additive_double : Additive double := {
  num_add := double_add
}.

(* ================================================================= *)
(** ** namespace spsparse *)

Module spsparse.

(** [enum class DuplicatePolicy] *)
Inductive DuplicatePolicy : Type :=
| LEAVE_ALONE
| ADD
| REPLACE
| REPLACE_THEN_ADD.

(** [class Exception : public std::exception]: no data members. *)
Inductive Exception : Type := mkException.

(** [virtual const char* what() const noexcept] *)
Definition what (e : Exception) : string := "spsparse::Exception()".

(** The documentation of [REPLACE_THEN_ADD] in the header: "Add if it's
    not NaN, otherwise replace", read on doubles. *)
Definition replace_then_add_doc (existing incoming : double) : double :=
  if double_isnan existing then incoming
  else double_add existing incoming.

(** [template<class NumT> inline bool isnone(NumT const n,
    bool const zero_nan=false)] *)
Definition isnone {T : Type} `{NumT T} (n : T) (zero_nan : bool) : bool :=
  if zero_nan then
    num_isnan n || num_eq0 n
  else
    num_eq0 n.

(** The default argument [zero_nan=false]. *)
Definition zero_nan_default : bool := false.

(** A call site of [isnone]: it passes the flag, or omits it and gets the
    default argument. *)
Definition isnone_call {T : Type} `{NumT T} (n : T) (zero_nan : option bool)
  : bool :=
  match zero_nan with
  | Some z => isnone n z
  | None => isnone n zero_nan_default
  end.

(** *** [isnone] with the caller's state made explicit

    A call runs in a state [S], everything the caller can observe besides
    the returned value.  The operations [isnone] applies to its argument
    belong to the template parameter: each is given the state and hands
    back the state it leaves. *)

Class NumOps (S T : Type) := {
  (** [std::isnan(n)] *)
  op_isnan : T -> S -> bool * S;
  (** [n == 0] *)
  op_eq0 : T -> S -> bool * S
}.

(** The body of [isnone], the state threaded in evaluation order: [||]
    evaluates [n == 0] only when [std::isnan(n)] is false; the body has no
    other statement, and [n] and [zero_nan] are its own copies. *)
Definition isnone_st {S T : Type} (ops : NumOps S T)
    (n : T) (zero_nan : bool) (s : S) : bool * S :=
  if zero_nan then
    let (nan, s1) := op_isnan n s in
    if nan then (true, s1) else op_eq0 n s1
  else
    op_eq0 n s.


(** The operations leave the state as they find it, and what they return
    does not depend on it. *)
Definition pure_ops {S T : Type} (ops : NumOps S T) : Prop :=
  (forall n s, snd (op_isnan n s) = s) /\
  (forall n s, snd (op_eq0 n s) = s) /\
  (forall n s s', fst (op_isnan n s) = fst (op_isnan n s')) /\
  (forall n s s', fst (op_eq0 n s) = fst (op_eq0 n s')).

(** A value type whose [==] is overloaded to count its evaluations in the
    state. *)
Definition counting_ops : NumOps nat double := {|
  op_isnan := fun n s => (double_isnan n, s);
  op_eq0 := fun n s => (double_eq n (double_of_int 0), S s)
|}.

End spsparse.

(* ================================================================= *)
(** ** namespace ibmisc *)

Module ibmisc.

(** [class Exception : public std::exception]: no data members. *)
Inductive Exception : Type := mkException.

(** [virtual const char* what() const noexcept] *)
Definition what (e : Exception) : string := "ibmisc::Exception()".

End ibmisc.

(* ================================================================= *)
(** ** Global scope: writing an array to a stream *)

(** [std::ostream]: the characters written so far; [os << s] appends. *)
Definition ostream := string.

Definition put (os : ostream) (s : string) : ostream := (os ++ s)%string.

Notation "os << s" := (put os s) (at level 55, left associativity).

(** [os << x] for an element type [T]: the text the inserter writes. *)
Class Insertable (T : Type) := { text_of : T -> string }.

(** An [int] is written in decimal. *)
#[global] Instance Insertable_int : Insertable int := {
  text_of := fun n => NilZero.string_of_int (Z.to_int n)
}.

(** What a call does: it returns a value, runs into undefined behaviour
    (a read outside the array, signed overflow), or is still running when
    the fuel given to the model is used up. *)
Inductive outcome (A : Type) : Type :=
| Returns (a : A)
| Undefined
| OutOfFuel.

Arguments Returns {A} a.
Arguments Undefined {A}.
Arguments OutOfFuel {A}.

(** [a[k]]: defined only inside the readable elements. *)
Definition read {T : Type} (a : list T) (k : int) : option T :=
  if k <? 0 then None else nth_error a (Z.to_nat k).

(** The body of [for (int k=0; ; ) { ... }], entered with the current [k]:
<<
    os << a[k];
    ++k;
    if (k == RANK) break;
    os << ", ";
>> *)
Fixpoint stream_loop {T : Type} `{Insertable T}
    (fuel : nat) (os : ostream) (a : list T) (RANK k : int)
  : outcome ostream :=
  match fuel with
  | O => OutOfFuel
  | S fuel' =>
      match read a k with
      | None => Undefined
      | Some x =>
          let os := os << text_of x in
          if k =? INT_MAX then Undefined
          else
            let k := k + 1 in
            if k =? RANK then Returns os
            else stream_loop fuel' (os << ", ") a RANK k
      end
  end.

(** [template<class T> std::ostream &stream(std::ostream &os,
    T const * const a, int RANK)] *)
Definition stream {T : Type} `{Insertable T}
    (fuel : nat) (os : ostream) (a : list T) (RANK : int)
  : outcome ostream :=
  if RANK =? 0 then
    Returns (os << "{}")
  else
    match stream_loop fuel (os << "{") a RANK 0 with
    | Returns os => Returns (os << "}")
    | Undefined => Undefined
    | OutOfFuel => OutOfFuel
    end.

(* ================================================================= *)
(** ** Parts of the library the two headers only declare or refer to

    The headers declare the sort-order constants [extern] and name
    [spsparse::consolidate()] in their documentation; the definitions
    below follow the specification of those parts. *)

(** Modelled from the spec: the value of [ROW_MAJOR], declared
    [extern const std::array<int,2>] in the header: row-major [[0,1]]. *)
Definition ROW_MAJOR : list int := [0; 1].

(** Modelled from the spec: the value of [COL_MAJOR], declared
    [extern const std::array<int,2>] in the header: column-major [[1,0]]. *)
Definition COL_MAJOR : list int := [1; 0].

(** Modelled from the spec: a dimension permutation of a given rank is a
    bijection over [{0, ..., rank-1}]. *)
Definition bijection_over (rank : nat) (perm : list int) : Prop :=
  List.length perm = rank /\
  NoDup perm /\
  forall d, In d perm <-> 0 <= d < Z.of_nat rank.

(** Modelled from the spec: the Coordinate Record, an index tuple paired
    with one value. *)
Record CooRecord (V : Type) : Type := mkCoo {
  index : list int;
  val : V
}.

Arguments mkCoo {V} index val.
Arguments index {V} c.
Arguments val {V} c.

(** Modelled from the spec: component [d] of an index tuple. *)
Definition dim (idx : list int) (d : int) : int := nth (Z.to_nat d) idx 0.

(** Modelled from the spec: the Sort Engine's order, the lexicographic
    comparison of two index tuples read in the permutation's dimension
    order. *)
Fixpoint compare_by (perm : list int) (a b : list int) : comparison :=
  match perm with
  | [] => Eq
  | d :: perm' =>
      match dim a d ?= dim b d with
      | Eq => compare_by perm' a b
      | c => c
      end
  end.

(** Modelled from the spec: two records share an identical coordinate
    tuple. *)
Fixpoint index_eqb (a b : list int) : bool :=
  match a, b with
  | [], [] => true
  | x :: a', y :: b' => (x =? y) && index_eqb a' b'
  | _, _ => false
  end.

(** Modelled from the spec: index tuple [a] does not come after [b] in
    the order of [perm]. *)
Definition leb_by (perm : list int) (a b : list int) : bool :=
  match compare_by perm a b with
  | Gt => false
  | _ => true
  end.

(** Modelled from the spec: the canonical default permutation,
    first-to-last dimension (row-major for rank 2). *)
Definition canonical_order (rank : nat) : list int :=
  map Z.of_nat (seq 0 rank).

(** Modelled from the spec: the sequences obtained by putting dimension
    [x] at each position of [l]. *)
Fixpoint insert_all (x : int) (l : list int) : list (list int) :=
  match l with
  | [] => [[x]]
  | y :: l' => (x :: l) :: map (cons y) (insert_all x l')
  end.

(** Modelled from the spec: every dimension permutation of the given
    dimensions. *)
Fixpoint perms (l : list int) : list (list int) :=
  match l with
  | [] => [[]]
  | x :: l' => flat_map (insert_all x) (perms l')
  end.

(** Duplicate coordinate tuples are adjacent in a sequence of tuples:
    each tuple is followed by an equal one or never met again. *)
Fixpoint grouped (l : list (list int)) : bool :=
  match l with
  | [] => true
  | c :: l' =>
      match l' with
      | [] => true
      | c' :: _ => index_eqb c c' || negb (existsb (index_eqb c) l')
      end && grouped l'
  end.

Section Consolidator.

Import spsparse.

Context {V : Type} `{NumT V} `{Additive V}.

(** Modelled from the spec: how [consolidate()] combines the value met
    earlier with the one met later, per policy; [REPLACE_THEN_ADD] has no
    meaning for a sparse destination. *)
Definition sparse_combine (policy : DuplicatePolicy)
  : option (V -> V -> V) :=
  match policy with
  | LEAVE_ALONE => Some (fun earlier _ => earlier)
  | ADD => Some (fun earlier later => num_add earlier later)
  | REPLACE => Some (fun _ later => later)
  | REPLACE_THEN_ADD => None
  end.

(** Modelled from the spec: the scan of [consolidate()] with the record
    [cur] being built: consecutive records with its coordinate tuple are
    merged into it. *)
Fixpoint merge_run (f : V -> V -> V) (cur : CooRecord V)
    (rest : list (CooRecord V)) : list (CooRecord V) :=
  match rest with
  | [] => [cur]
  | r :: rest' =>
      if index_eqb (index cur) (index r)
      then merge_run f (mkCoo (index cur) (f (val cur) (val r))) rest'
      else cur :: merge_run f r rest'
  end.

(** Modelled from the spec: the merge pass of [consolidate()] over a
    sequence whose duplicates are adjacent. *)
Definition merge_pass (f : V -> V -> V) (arr : list (CooRecord V))
  : list (CooRecord V) :=
  match arr with
  | [] => []
  | r :: rest => merge_run f r rest
  end.

(** Modelled from the spec: the Sort Engine's insertion of one record
    into a sequence ordered by [perm]; the record goes in front of the
    first record that does not come before it, so that among equal
    coordinate tuples the one met earlier stays in front. *)
Fixpoint insert_by (perm : list int) (r : CooRecord V)
    (l : list (CooRecord V)) : list (CooRecord V) :=
  match l with
  | [] => [r]
  | x :: l' =>
      if leb_by perm (index r) (index x) then r :: l
      else x :: insert_by perm r l'
  end.

(** Modelled from the spec: [sort(array, permutation)] (4.2), a stable
    sort by the lexicographic order of the index tuples read in the
    permutation's dimension order. *)
Definition sort (arr : list (CooRecord V)) (perm : list int)
  : list (CooRecord V) :=
  fold_right (insert_by perm) [] arr.

(** Modelled from the spec: an array is sorted by [perm] when no record
    comes after its successor in the order of [perm]. *)
Fixpoint sorted_by (perm : list int) (arr : list (CooRecord V)) : bool :=
  match arr with
  | [] => true
  | r :: arr' =>
      match arr' with
      | [] => true
      | r' :: _ => leb_by perm (index r) (index r')
      end && sorted_by perm arr'
  end.

(** Modelled from the spec: the declared rank of an array, the length of
    its index tuples. *)
Definition array_rank (arr : list (CooRecord V)) : nat :=
  match arr with
  | [] => O
  | r :: _ => List.length (index r)
  end.

(** Modelled from the spec: the invariant of a Coordinate Array, all its
    records have index tuples of the declared rank. *)
Definition uniform_rank (arr : list (CooRecord V)) : bool :=
  forallb (fun r => Nat.eqb (List.length (index r)) (array_rank arr)) arr.

(** Modelled from the spec: the array is pre-sorted, by any permutation
    of its dimensions. *)
Definition pre_sorted (arr : list (CooRecord V)) : bool :=
  existsb (fun perm => sorted_by perm arr)
          (perms (canonical_order (array_rank arr))).

(** Modelled from the spec: the sequence [consolidate()] scans: the array
    itself when it is pre-sorted, and otherwise the array sorted by the
    canonical default permutation (4.3, Precondition). *)
Definition arrange (arr : list (CooRecord V)) : list (CooRecord V) :=
  if pre_sorted arr then arr
  else sort arr (canonical_order (array_rank arr)).

(** Modelled from the spec: [consolidate(array, policy, zero_nan,
    eliminate_none)] (4.3): the array is put in sorted order if it is not,
    duplicates are merged in one scan, and none values are dropped on
    request; a [REPLACE_THEN_ADD] request raises the library exception. *)
Definition consolidate (arr : list (CooRecord V))
    (policy : DuplicatePolicy) (zero_nan eliminate_none : bool)
  : Exception + list (CooRecord V) :=
  match sparse_combine policy with
  | None => inl mkException
  | Some f =>
      let out := merge_pass f (arrange arr) in
      inr (if eliminate_none
           then filter (fun r => negb (isnone (val r) zero_nan)) out
           else out)
  end.

(** The values of the records of [arr] at coordinate [c], in the order
    they are met. *)
Definition values_at (c : list int) (arr : list (CooRecord V)) : list V :=
  map val (filter (fun r => index_eqb (index r) c) arr).

(** Modelled from the spec: a dense destination, a container addressed
    by coordinate that holds a value in every cell. *)
Definition Dense : Type := list int -> V.

(** Modelled from the spec: storing a value in one cell of a dense
    destination. *)
Definition dense_set (d : Dense) (idx : list int) (v : V) : Dense :=
  fun i => if index_eqb i idx then v else d i.

(** Modelled from the spec: how a merge into a dense destination
    combines the value already in the cell with the incoming one. *)
Definition dense_combine (policy : DuplicatePolicy) (zero_nan : bool)
    (existing incoming : V) : V :=
  match policy with
  | LEAVE_ALONE => existing
  | ADD => num_add existing incoming
  | REPLACE => incoming
  | REPLACE_THEN_ADD =>
      if isnone existing zero_nan then incoming
      else num_add existing incoming
  end.

(** Modelled from the spec: merging one record into a dense
    destination. *)
Definition dense_merge (policy : DuplicatePolicy) (zero_nan : bool)
    (d : Dense) (r : CooRecord V) : Dense :=
  dense_set d (index r)
    (dense_combine policy zero_nan (d (index r)) (val r)).

(** The values a merged sequence holds at one coordinate, from the values
    [vs] the scanned sequence holds there, combined left to right. *)
Definition merged_values (f : V -> V -> V) (vs : list V) : list V :=
  match vs with
  | [] => []
  | v :: vs' => [fold_left f vs' v]
  end.

End Consolidator.

(** Example data: a dense destination of doubles holding NaN at (0,0), 0.0 at (0,1) and
    4.0 elsewhere. *)
Definition dense_example : @Dense double :=
  dense_set (dense_set (fun _ => dbl_4) [0; 0] NaN) [0; 1] dbl_0.

(** Example data: the two records at (1,1) with values 3.0 and 4.0. *)
Definition dup_example : list (CooRecord double) :=
  [mkCoo [1; 1] dbl_3; mkCoo [1; 1] dbl_4].

(** Example data: an array that is not sorted, with (1,1) met twice and
    another coordinate in between. *)
Definition unsorted_example : list (CooRecord double) :=
  [mkCoo [1; 1] dbl_3; mkCoo [0; 0] dbl_5; mkCoo [1; 1] dbl_4].

(* ================================================================= *)
(** ** Auxiliary notions used to state properties *)

(** The outcome of a call with its returned value transformed. *)
Definition outcome_map {A B : Type} (f : A -> B) (o : outcome A)
  : outcome B :=
  match o with
  | Returns a => Returns (f a)
  | Undefined => Undefined
  | OutOfFuel => OutOfFuel
  end.

(** [c] is one of the two characters [stream] writes after an element:
    the comma of [", "] or the closing brace. *)
Definition is_punct (c : ascii) : bool :=
  Ascii.eqb c "," || Ascii.eqb c "}".

(** A text free of those characters. *)
Fixpoint no_punct (s : string) : bool :=
  match s with
  | EmptyString => true
  | String c s' => negb (is_punct c) && no_punct s'
  end.

(** A text that begins with one of them. *)
Definition starts_punct (s : string) : bool :=
  match s with
  | EmptyString => false
  | String c _ => is_punct c
  end.

(** What follows the first element in the text [stream] writes for a
    non-empty array: the remaining elements, each after [", "], and the
    closing brace. *)
Fixpoint rest_text (xs : list string) : string :=
  match xs with
  | [] => "}"
  | x :: xs' => (", " ++ x ++ rest_text xs')%string
  end.

(** [-x] on doubles. *)
Definition double_neg (x : double) : double := SFopp x.

(* ================================================================= *)
(** * Properties *)

(* ----------------------------------------------------------------- *)
(** ** The value classifier [isnone] *)

Section DoubleFacts.

(** [n == 0] holds exactly for the two zeros. *)
Lemma double_eq0_iff (n : double) :
  double_eq n (double_of_int 0) = true <-> exists s, n = S754_zero s.
Proof.
  change (double_of_int 0) with (S754_zero false).
  destruct n as [s | s | | s m e]; unfold double_eq, SFeqb; simpl.
  - split; [intros _; now exists s | reflexivity].
  - split; [destruct s; discriminate | intros [s' E]; discriminate].
  - split; [discriminate | intros [s' E]; discriminate].
  - split; [destruct s; discriminate | intros [s' E]; discriminate].
Qed.

Lemma double_isnan_iff (n : double) :
  double_isnan n = true <-> n = S754_nan.
Proof.
  destruct n; simpl; split; intros E; try reflexivity; discriminate.
Qed.

(** A NaN is not [== 0]. *)
Lemma double_nan_ne0 : double_eq NaN (double_of_int 0) = false.
Proof. reflexivity. Qed.



End DoubleFacts.

Section IntToDouble.

Variables prec emax : Z.

Lemma shr_1_nonneg (mrs : shr_record) :
  0 <= shr_m mrs -> 0 <= shr_m (shr_1 mrs).
Proof.
  destruct mrs as [m r s]; simpl.
  destruct m as [ | [p | p | ] | [p | p | ]]; simpl; lia.
Qed.

Lemma iter_pos_nonneg (n : positive) :
  forall mrs, 0 <= shr_m mrs -> 0 <= shr_m (iter_pos shr_1 n mrs).
Proof.
  induction n as [n IH | n IH | ]; intros mrs Hm; simpl.
  - apply IH, IH, shr_1_nonneg, Hm.
  - apply IH, IH, Hm.
  - apply shr_1_nonneg, Hm.
Qed.

Lemma shr_record_of_loc_m (m : Z) (l : location) :
  shr_m (shr_record_of_loc m l) = m.
Proof. destruct l as [ | [ | | ]]; reflexivity. Qed.

Lemma shr_nonneg (mrs : shr_record) (e n : Z) :
  0 <= shr_m mrs -> 0 <= shr_m (fst (shr mrs e n)).
Proof.
  intros Hm; destruct n; simpl; auto using iter_pos_nonneg.
Qed.

Lemma shr_fexp_nonneg (m e : Z) (l : location) :
  0 <= m -> 0 <= shr_m (fst (shr_fexp prec emax m e l)).
Proof.
  intros Hm; unfold shr_fexp; apply shr_nonneg.
  now rewrite shr_record_of_loc_m.
Qed.

Lemma round_nearest_even_nonneg (m : Z) (l : location) :
  0 <= m -> 0 <= round_nearest_even m l.
Proof.
  intros Hm; destruct l as [ | [ | | ]]; simpl; try lia.
  destruct (Z.even m); lia.
Qed.

(** Rounding a non-negative mantissa never yields a NaN. *)
Lemma binary_round_aux_not_nan (sx : bool) (mx ex : Z) (lx : location) :
  0 <= mx -> binary_round_aux prec emax sx mx ex lx <> S754_nan.
Proof.
  intros Hm; unfold binary_round_aux.
  pose proof (shr_fexp_nonneg mx ex lx Hm) as H1.
  destruct (shr_fexp prec emax mx ex lx) as [mrs' e']; simpl in H1.
  pose proof (shr_fexp_nonneg _ e' loc_Exact
                (round_nearest_even_nonneg _ (loc_of_shr_record mrs') H1))
    as H2.
  destruct (shr_fexp prec emax _ e' loc_Exact) as [mrs'' e'']; simpl in H2.
  destruct (shr_m mrs'') as [ | m | m].
  - discriminate.
  - destruct (e'' <=? emax - prec); discriminate.
  - lia.
Qed.

Lemma binary_normalize_not_nan (m e : Z) (szero : bool) :
  binary_normalize prec emax m e szero <> S754_nan.
Proof.
  destruct m as [ | m | m]; simpl; try discriminate;
    unfold binary_round;
    destruct (shl_align _ _ _) as [mz ez];
    apply binary_round_aux_not_nan; lia.
Qed.

End IntToDouble.

(** Converting an integer to [double] never gives a NaN. *)
Lemma int_isnan_false (n : int) : double_isnan (double_of_int n) = false.
Proof.
  pose proof (binary_normalize_not_nan dbl_prec dbl_emax n 0 false) as Hn.
  fold (double_of_int n) in Hn.
  destruct (double_of_int n); try reflexivity; now elim Hn.
Qed.

(** On doubles, [isnone(n, false)] holds exactly for the two zeros. *)
Lemma isnone_double_false_iff (n : double) :
  spsparse.isnone n false = true <-> exists s, n = S754_zero s.
Proof. apply double_eq0_iff. Qed.

(** On integers, [isnone(n, false)] holds exactly for zero. *)
Lemma isnone_int_false_iff (n : int) :
  spsparse.isnone n false = true <-> n = 0.
Proof. apply Z.eqb_eq. Qed.

(** C1: with [zero_nan] set, [isnone] holds exactly for NaN and for zero,
    on doubles and on integers (which are never NaN); [isnone(NaN, true)]
    is true and [isnone(5.0, true)] is false. *)
Theorem isnone_zero_nan_true :
  (forall n : double,
      spsparse.isnone n true = true <->
      (n = S754_nan \/ exists s, n = S754_zero s)) /\
  (forall n : int,
      spsparse.isnone n true = true <->
      (double_of_int n = S754_nan \/ n = 0)) /\
  (forall n : int, spsparse.isnone n true = true <-> n = 0) /\
  spsparse.isnone NaN true = true /\
  spsparse.isnone dbl_5 true = false.
Proof.
  split; [ | split; [ | split; [ | split; reflexivity]]].
  - intros n; unfold spsparse.isnone; simpl.
    rewrite orb_true_iff, double_isnan_iff, double_eq0_iff; reflexivity.
  - intros n; unfold spsparse.isnone; simpl.
    rewrite orb_true_iff, double_isnan_iff, Z.eqb_eq; reflexivity.
  - intros n; unfold spsparse.isnone; simpl.
    rewrite int_isnan_false; simpl; apply Z.eqb_eq.
Qed.

(** C2: with [zero_nan] clear, [isnone] holds exactly for zero;
    [isnone(0.0, false)] is true and [isnone(NaN, false)] is false. *)
Theorem isnone_zero_nan_false :
  (forall n : double,
      spsparse.isnone n false = true <-> exists s, n = S754_zero s) /\
  (forall n : int, spsparse.isnone n false = true <-> n = 0) /\
  spsparse.isnone dbl_0 false = true /\
  spsparse.isnone NaN false = false.
Proof.
  split; [ | split; [ | split; reflexivity]].
  - exact isnone_double_false_iff.
  - exact isnone_int_false_iff.
Qed.





(** The state of the model is live: with a [==] that counts its
    evaluations, [isnone] passes the effect on, and a NaN under [zero_nan]
    is classified without evaluating [==]. *)
Example isnone_st_counting :
  spsparse.isnone_st spsparse.counting_ops dbl_5 true 0%nat =
    (false, 1%nat) /\
  spsparse.isnone_st spsparse.counting_ops dbl_0 false 0%nat =
    (true, 1%nat) /\
  spsparse.isnone_st spsparse.counting_ops NaN true 0%nat = (true, 0%nat) /\
  ~ spsparse.pure_ops spsparse.counting_ops.
Proof.
  repeat split.
  intros [_ [Hs2 _]]; specialize (Hs2 dbl_0 0%nat); discriminate.
Qed.

(** C8: a call that omits [zero_nan] is the call with [zero_nan == false]:
    only zero is classified as none, and NaN is not. *)
Theorem isnone_default_flag :
  (forall (T : Type) (NT : NumT T) (n : T),
      spsparse.isnone_call n None = spsparse.isnone_call n (Some false)) /\
  (forall n : double,
      spsparse.isnone_call n None = true <-> exists s, n = S754_zero s) /\
  (forall n : int, spsparse.isnone_call n None = true <-> n = 0) /\
  spsparse.isnone_call NaN None = false.
Proof.
  split; [ | split; [ | split; [ | reflexivity]]].
  - reflexivity.
  - intros n; apply isnone_double_false_iff.
  - intros n; apply isnone_int_false_iff.
Qed.

(* ----------------------------------------------------------------- *)
(** ** The exception types *)

(** C6: [what()] returns the same fixed description on every call, naming
    the library of origin, and an exception carries nothing else: any two
    exceptions of one library are the same value. *)
Theorem exception_what_fixed :
  (forall e : spsparse.Exception,
      spsparse.what e = "spsparse::Exception()"%string) /\
  (forall e : ibmisc.Exception,
      ibmisc.what e = "ibmisc::Exception()"%string) /\
  (forall e1 e2 : spsparse.Exception, e1 = e2) /\
  (forall e1 e2 : ibmisc.Exception, e1 = e2) /\
  (forall (e1 : spsparse.Exception) (e2 : ibmisc.Exception),
      spsparse.what e1 <> ibmisc.what e2).
Proof.
  repeat split.
  - intros [] []; reflexivity.
  - intros [] []; reflexivity.
  - intros e1 e2; unfold spsparse.what, ibmisc.what; discriminate.
Qed.

(* ----------------------------------------------------------------- *)
(** ** Sort-order constants *)

Lemma compare_by_rank2 (p q a0 a1 b0 b1 : int) :
  compare_by [p; q] [a0; a1] [b0; b1] =
  match dim [a0; a1] p ?= dim [b0; b1] p with
  | Eq => dim [a0; a1] q ?= dim [b0; b1] q
  | c => c
  end.
Proof.
  simpl compare_by.
  destruct (dim [a0; a1] p ?= dim [b0; b1] p); try reflexivity.
  destruct (dim [a0; a1] q ?= dim [b0; b1] q); reflexivity.
Qed.

(** C5: [ROW_MAJOR] is [[0,1]] and compares dimension 0 first,
    [COL_MAJOR] is [[1,0]] and compares dimension 1 first, and each is a
    bijection over [{0,1}]; on the records at (0,1) and (1,0) the two
    orders are opposite. *)
Theorem sort_order_constants :
  ROW_MAJOR = [0; 1] /\
  COL_MAJOR = [1; 0] /\
  bijection_over 2 ROW_MAJOR /\
  bijection_over 2 COL_MAJOR /\
  (forall a0 a1 b0 b1 : int,
      compare_by ROW_MAJOR [a0; a1] [b0; b1] =
      match a0 ?= b0 with Eq => a1 ?= b1 | c => c end) /\
  (forall a0 a1 b0 b1 : int,
      compare_by COL_MAJOR [a0; a1] [b0; b1] =
      match a1 ?= b1 with Eq => a0 ?= b0 | c => c end) /\
  compare_by ROW_MAJOR [0; 1] [1; 0] = Lt /\
  compare_by COL_MAJOR [0; 1] [1; 0] = Gt.
Proof.
  assert (Hbij : forall p q : int,
             (p = 0 /\ q = 1) \/ (p = 1 /\ q = 0) ->
             bijection_over 2 [p; q]).
  { intros p q Hpq; split; [reflexivity | split].
    - constructor; [simpl; lia | ].
      constructor; [simpl; tauto | constructor].
    - intros d; simpl; lia. }
  split; [reflexivity | split; [reflexivity | ]].
  split; [apply Hbij; lia | split; [apply Hbij; lia | ]].
  split; [ | split; [ | split; reflexivity]].
  - intros a0 a1 b0 b1; unfold ROW_MAJOR; rewrite compare_by_rank2.
    reflexivity.
  - intros a0 a1 b0 b1; unfold COL_MAJOR; rewrite compare_by_rank2.
    reflexivity.
Qed.

(* ----------------------------------------------------------------- *)
(** ** Duplicate policies *)

Lemma index_eqb_refl (c : list int) : index_eqb c c = true.
Proof.
  induction c as [ | x c IH]; simpl; [reflexivity | ].
  now rewrite Z.eqb_refl, IH.
Qed.

Lemma index_eqb_eq (a b : list int) : index_eqb a b = true <-> a = b.
Proof.
  revert b; induction a as [ | x a IH]; intros [ | y b]; simpl;
    try (split; [reflexivity || discriminate | reflexivity || discriminate]).
  rewrite andb_true_iff, Z.eqb_eq, IH.
  split; [intros [-> ->]; reflexivity | intros E; injection E; auto].
Qed.


(** *** The order of the Sort Engine *)

Lemma compare_by_refl (perm a : list int) : compare_by perm a a = Eq.
Proof.
  induction perm as [ | d perm IH]; simpl; [reflexivity | ].
  now rewrite Z.compare_refl.
Qed.

Lemma compare_by_antisym (perm a b : list int) :
  compare_by perm b a = CompOpp (compare_by perm a b).
Proof.
  induction perm as [ | d perm IH]; simpl; [reflexivity | ].
  rewrite (Z.compare_antisym (dim a d) (dim b d)).
  destruct (dim a d ?= dim b d); simpl; auto.
Qed.

Lemma leb_by_total (perm a b : list int) :
  leb_by perm a b = false -> leb_by perm b a = true.
Proof.
  unfold leb_by; rewrite (compare_by_antisym perm a b).
  destruct (compare_by perm a b); simpl; congruence.
Qed.

Lemma leb_by_antisym (perm a b : list int) :
  leb_by perm a b = true -> leb_by perm b a = true ->
  compare_by perm a b = Eq.
Proof.
  unfold leb_by; rewrite (compare_by_antisym perm a b).
  destruct (compare_by perm a b); simpl; congruence.
Qed.

Lemma leb_by_trans (perm a b c : list int) :
  leb_by perm a b = true -> leb_by perm b c = true ->
  leb_by perm a c = true.
Proof.
  unfold leb_by; induction perm as [ | d perm IH]; simpl; [reflexivity | ].
  destruct (Z.compare_spec (dim a d) (dim b d)) as [Eab | Lab | Gab];
    destruct (Z.compare_spec (dim b d) (dim c d)) as [Ebc | Lbc | Gbc];
    intros Hab Hbc; try discriminate.
  - rewrite Eab, Ebc, Z.compare_refl; auto.
  - rewrite Eab; apply Z.compare_lt_iff in Lbc; now rewrite Lbc.
  - rewrite <- Ebc; apply Z.compare_lt_iff in Lab; now rewrite Lab.
  - assert (Lac : dim a d < dim c d) by lia.
    apply Z.compare_lt_iff in Lac; now rewrite Lac.
Qed.

(** Tuples that compare equal agree in every dimension the permutation
    names. *)
Lemma compare_by_Eq_dim (perm a b : list int) :
  compare_by perm a b = Eq ->
  forall d, In d perm -> dim a d = dim b d.
Proof.
  induction perm as [ | d0 perm IH]; simpl; intros E d Hin; [contradiction | ].
  destruct (Z.compare_spec (dim a d0) (dim b d0)) as [E0 | | ];
    try discriminate.
  destruct Hin as [<- | Hin]; auto.
Qed.

(** A permutation that names every dimension tells tuples of that rank
    apart. *)
Lemma compare_by_Eq_eq (rank : nat) (perm a b : list int) :
  (forall i, (i < rank)%nat -> In (Z.of_nat i) perm) ->
  List.length a = rank -> List.length b = rank ->
  compare_by perm a b = Eq -> a = b.
Proof.
  intros Hcover La Lb E.
  apply (nth_ext a b 0 0); [congruence | ].
  intros i Hi; rewrite La in Hi.
  pose proof (compare_by_Eq_dim perm a b E _ (Hcover i Hi)) as Hd.
  unfold dim in Hd; now rewrite Nat2Z.id in Hd.
Qed.

Lemma insert_all_keeps (x : int) (l q : list int) :
  In q (insert_all x l) -> forall d, In d (x :: l) -> In d q.
Proof.
  revert q; induction l as [ | y l IH]; intros q Hq d Hd; simpl in Hq.
  - destruct Hq as [<- | []]; exact Hd.
  - destruct Hq as [<- | Hq]; [exact Hd | ].
    apply in_map_iff in Hq; destruct Hq as [q' [<- Hq']].
    destruct Hd as [<- | [<- | Hd]].
    + right; apply (IH q' Hq'); now left.
    + now left.
    + right; apply (IH q' Hq'); now right.
Qed.

Lemma perms_keep (l p : list int) :
  In p (perms l) -> forall d, In d l -> In d p.
Proof.
  revert p; induction l as [ | x l IH]; intros p Hp d Hd; [contradiction | ].
  simpl in Hp; apply in_flat_map in Hp; destruct Hp as [q [Hq Hp]].
  apply (insert_all_keeps x q p Hp).
  destruct Hd as [<- | Hd]; [now left | right; now apply IH].
Qed.

Lemma canonical_order_covers (rank i : nat) :
  (i < rank)%nat -> In (Z.of_nat i) (canonical_order rank).
Proof.
  intros Hi; unfold canonical_order; apply in_map, in_seq; lia.
Qed.

Lemma perms_self (l : list int) : In l (perms l).
Proof.
  induction l as [ | x l IH]; simpl; [now left | ].
  apply in_flat_map; exists l; split; [exact IH | ].
  destruct l; simpl; now left.
Qed.

Section PolicyFacts.

Import spsparse.

Context {V : Type} {NV : NumT V} {AV : Additive V}.

(** *** Sorting keeps the records and the order of duplicates *)

Lemma values_at_cons (c : list int) (r : CooRecord V)
    (l : list (CooRecord V)) :
  values_at c (r :: l) =
  if index_eqb (index r) c then val r :: values_at c l else values_at c l.
Proof.
  unfold values_at; simpl; now destruct (index_eqb (index r) c).
Qed.

Lemma sorted_by_tail (perm : list int) (r : CooRecord V)
    (l : list (CooRecord V)) :
  sorted_by perm (r :: l) = true -> sorted_by perm l = true.
Proof.
  simpl; intros Hs; apply andb_true_iff in Hs; tauto.
Qed.

Lemma sorted_by_head (perm : list int) (l : list (CooRecord V)) :
  forall r : CooRecord V,
    sorted_by perm (r :: l) = true ->
    forall x, In x l -> leb_by perm (index r) (index x) = true.
Proof.
  induction l as [ | r' l IH]; intros r Hs x Hin; [contradiction | ].
  pose proof (sorted_by_tail _ _ _ Hs) as Ht.
  simpl in Hs; apply andb_true_iff in Hs; destruct Hs as [Hrr' _].
  destruct Hin as [<- | Hin]; [exact Hrr' | ].
  apply (leb_by_trans perm _ (index r')); [exact Hrr' | now apply IH].
Qed.

Lemma insert_by_sorted (perm : list int) (r : CooRecord V)
    (l : list (CooRecord V)) :
  sorted_by perm l = true -> sorted_by perm (insert_by perm r l) = true.
Proof.
  induction l as [ | x l IH]; intros Hs; [reflexivity | ].
  simpl insert_by.
  destruct (leb_by perm (index r) (index x)) eqn:Hrx.
  - change (leb_by perm (index r) (index x) && sorted_by perm (x :: l) = true).
    now rewrite Hrx, Hs.
  - pose proof (sorted_by_tail _ _ _ Hs) as Ht.
    specialize (IH Ht).
    apply leb_by_total in Hrx.
    destruct l as [ | y l]; simpl insert_by in *.
    + simpl; now rewrite Hrx.
    + destruct (leb_by perm (index r) (index y)).
      * change (leb_by perm (index x) (index r) &&
                sorted_by perm (r :: y :: l) = true).
        now rewrite Hrx, IH.
      * simpl in Hs; apply andb_true_iff in Hs; destruct Hs as [Hxy _].
        change (leb_by perm (index x) (index y) &&
                sorted_by perm (y :: insert_by perm r l) = true).
        now rewrite Hxy, IH.
Qed.

Lemma sort_sorted (perm : list int) (arr : list (CooRecord V)) :
  sorted_by perm (sort arr perm) = true.
Proof.
  induction arr as [ | r arr IH]; [reflexivity | ].
  now apply insert_by_sorted.
Qed.

Lemma insert_by_In (perm : list int) (r x : CooRecord V)
    (l : list (CooRecord V)) :
  In x (insert_by perm r l) -> x = r \/ In x l.
Proof.
  induction l as [ | y l IH]; simpl.
  - intros [<- | []]; now left.
  - destruct (leb_by perm (index r) (index y)); simpl.
    + intros [<- | Hin]; auto.
    + intros [<- | Hin]; auto.
      destruct (IH Hin); auto.
Qed.

Lemma sort_In (perm : list int) (x : CooRecord V)
    (arr : list (CooRecord V)) :
  In x (sort arr perm) -> In x arr.
Proof.
  induction arr as [ | r arr IH]; [auto | ].
  intros Hin; apply insert_by_In in Hin.
  destruct Hin as [-> | Hin]; [now left | right; auto].
Qed.

(** Inserting a record does not move it past a record at its own
    coordinate. *)
Lemma values_at_insert_by (perm c : list int) (r : CooRecord V)
    (l : list (CooRecord V)) :
  values_at c (insert_by perm r l) = values_at c (r :: l).
Proof.
  induction l as [ | x l IH]; [reflexivity | ].
  simpl insert_by.
  destruct (leb_by perm (index r) (index x)) eqn:Hrx; [reflexivity | ].
  rewrite (values_at_cons c x), IH, !values_at_cons.
  destruct (index_eqb (index x) c) eqn:Ex; [ | reflexivity].
  destruct (index_eqb (index r) c) eqn:Er; [ | reflexivity].
  apply index_eqb_eq in Ex; apply index_eqb_eq in Er.
  unfold leb_by in Hrx.
  rewrite Ex, Er, compare_by_refl in Hrx; discriminate.
Qed.

(** The sort is stable: at each coordinate the values keep their order. *)
Lemma values_at_sort (perm c : list int) (arr : list (CooRecord V)) :
  values_at c (sort arr perm) = values_at c arr.
Proof.
  induction arr as [ | r arr IH]; [reflexivity | ].
  change (sort (r :: arr) perm) with (insert_by perm r (sort arr perm)).
  now rewrite values_at_insert_by, !values_at_cons, IH.
Qed.

Lemma values_at_arrange (c : list int) (arr : list (CooRecord V)) :
  values_at c (arrange arr) = values_at c arr.
Proof.
  unfold arrange; destruct (pre_sorted arr); [reflexivity | ].
  apply values_at_sort.
Qed.

(** *** In a sorted array duplicates are adjacent *)

Lemma sorted_by_grouped (rank : nat) (perm : list int)
    (l : list (CooRecord V)) :
  (forall i, (i < rank)%nat -> In (Z.of_nat i) perm) ->
  (forall r, In r l -> List.length (index r) = rank) ->
  sorted_by perm l = true ->
  grouped (map index l) = true.
Proof.
  intros Hcover; induction l as [ | r l IH]; intros Hrank Hs;
    [reflexivity | ].
  pose proof (sorted_by_tail _ _ _ Hs) as Ht.
  assert (IHl : grouped (map index l) = true)
    by (apply IH; [intros x Hx; apply Hrank; now right | exact Ht]).
  destruct l as [ | r' l]; [reflexivity | ].
  change (grouped (map index (r :: r' :: l)))
    with ((index_eqb (index r) (index r') ||
           negb (existsb (index_eqb (index r)) (map index (r' :: l)))) &&
          grouped (map index (r' :: l))).
  rewrite IHl, andb_true_r.
  destruct (index_eqb (index r) (index r')) eqn:Err'; [reflexivity | ].
  change (negb (existsb (index_eqb (index r)) (map index (r' :: l))) = true).
  destruct (existsb (index_eqb (index r)) (map index (r' :: l))) eqn:Ex;
    [ | reflexivity].
  apply existsb_exists in Ex; destruct Ex as [cx [Hcx Ecx]].
  apply in_map_iff in Hcx; destruct Hcx as [x [<- Hx]].
  apply index_eqb_eq in Ecx.
  assert (Hrr' : leb_by perm (index r) (index r') = true)
    by (apply (sorted_by_head perm _ r Hs); now left).
  assert (Hr'r : leb_by perm (index r') (index r) = true).
  { rewrite Ecx; destruct Hx as [<- | Hx].
    - unfold leb_by; now rewrite compare_by_refl.
    - now apply (sorted_by_head perm l r' Ht). }
  assert (E : index r = index r').
  { apply (compare_by_Eq_eq rank perm); auto.
    - apply Hrank; now left.
    - apply Hrank; right; now left.
    - now apply leb_by_antisym. }
  apply index_eqb_eq in E; congruence.
Qed.

Lemma uniform_rank_In (arr : list (CooRecord V)) :
  uniform_rank arr = true ->
  forall r, In r arr -> List.length (index r) = array_rank arr.
Proof.
  unfold uniform_rank; intros Hu r Hin.
  rewrite forallb_forall in Hu; now apply Nat.eqb_eq, Hu.
Qed.

(** What [consolidate()] scans has its duplicates adjacent. *)
Lemma arrange_grouped (arr : list (CooRecord V)) :
  uniform_rank arr = true ->
  grouped (map index (arrange arr)) = true.
Proof.
  intros Hu; pose proof (uniform_rank_In arr Hu) as Hrank.
  unfold arrange; destruct (pre_sorted arr) eqn:Hpre.
  - unfold pre_sorted in Hpre; apply existsb_exists in Hpre.
    destruct Hpre as [perm [Hperm Hs]].
    apply (sorted_by_grouped (array_rank arr) perm); auto.
    intros i Hi; apply (perms_keep _ _ Hperm).
    now apply canonical_order_covers.
  - apply (sorted_by_grouped (array_rank arr)
             (canonical_order (array_rank arr))).
    + intros i Hi; now apply canonical_order_covers.
    + intros r Hin; apply Hrank; now apply sort_In in Hin.
    + apply sort_sorted.
Qed.

(** *** The merge pass *)

Lemma values_at_absent (c : list int) (l : list (CooRecord V)) :
  existsb (index_eqb c) (map index l) = false -> values_at c l = [].
Proof.
  induction l as [ | r l IH]; [reflexivity | ].
  simpl existsb; intros Hex; apply orb_false_iff in Hex.
  destruct Hex as [Hr Hl]; rewrite values_at_cons, (IH Hl).
  destruct (index_eqb (index r) c) eqn:E; [ | reflexivity].
  apply index_eqb_eq in E; rewrite E, index_eqb_refl in Hr; discriminate.
Qed.

Lemma merge_run_values (f : V -> V -> V) (c : list int) :
  forall (rest : list (CooRecord V)) (cur : CooRecord V),
    grouped (index cur :: map index rest) = true ->
    values_at c (merge_run f cur rest) =
    if index_eqb (index cur) c
    then [fold_left f (values_at c rest) (val cur)]
    else merged_values f (values_at c rest).
Proof.
  induction rest as [ | r rest IH]; intros cur G.
  - simpl merge_run; rewrite values_at_cons.
    now destruct (index_eqb (index cur) c).
  - change (grouped (index cur :: map index (r :: rest)))
      with ((index_eqb (index cur) (index r) ||
             negb (existsb (index_eqb (index cur)) (map index (r :: rest)))) &&
            grouped (map index (r :: rest))) in G.
    apply andb_true_iff in G; destruct G as [Gh Gt].
    simpl merge_run.
    destruct (index_eqb (index cur) (index r)) eqn:E.
    + apply index_eqb_eq in E.
      rewrite IH by (simpl index; rewrite E; exact Gt).
      simpl index; simpl val; rewrite (values_at_cons c r), <- E.
      now destruct (index_eqb (index cur) c).
    + change (negb (existsb (index_eqb (index cur)) (map index (r :: rest)))
              = true) in Gh.
      apply negb_true_iff in Gh.
      rewrite values_at_cons, (IH r Gt).
      destruct (index_eqb (index cur) c) eqn:Ec.
      * apply index_eqb_eq in Ec; subst c.
        rewrite (values_at_absent _ (r :: rest)) by exact Gh.
        pose proof (values_at_absent _ (r :: rest) Gh) as Habs.
        rewrite values_at_cons in Habs.
        destruct (index_eqb (index r) (index cur));
          [discriminate | now rewrite Habs].
      * rewrite (values_at_cons c r).
        now destruct (index_eqb (index r) c).
Qed.

Lemma merge_pass_values (f : V -> V -> V) (c : list int)
    (l : list (CooRecord V)) :
  grouped (map index l) = true ->
  values_at c (merge_pass f l) = merged_values f (values_at c l).
Proof.
  destruct l as [ | r l]; intros G; [reflexivity | ].
  simpl merge_pass; rewrite merge_run_values by exact G.
  rewrite values_at_cons.
  now destruct (index_eqb (index r) c).
Qed.

(** What [consolidate()] returns at each coordinate, for a policy that
    combines values with [f]. *)
Lemma consolidate_values (policy : DuplicatePolicy) (f : V -> V -> V)
    (arr : list (CooRecord V)) (c : list int) (zero_nan : bool) :
  sparse_combine policy = Some f ->
  uniform_rank arr = true ->
  exists out,
    consolidate arr policy zero_nan false = inr out /\
    values_at c out = merged_values f (values_at c arr).
Proof.
  intros Hf Hu; exists (merge_pass f (arrange arr)).
  unfold consolidate; rewrite Hf; split; [reflexivity | ].
  rewrite merge_pass_values by now apply arrange_grouped.
  now rewrite values_at_arrange.
Qed.

Lemma fold_left_keep_first (vs : list V) (v : V) :
  fold_left (fun earlier _ => earlier) vs v = v.
Proof. induction vs as [ | w vs IH]; simpl; auto. Qed.

Lemma last_nonempty_default (x : V) (vs : list V) (d d' : V) :
  last (x :: vs) d = last (x :: vs) d'.
Proof.
  revert x; induction vs as [ | y vs IH]; intros x; [reflexivity | ].
  change (last (y :: vs) d = last (y :: vs) d'); apply IH.
Qed.

Lemma fold_left_keep_last (vs : list V) (v : V) :
  fold_left (fun _ later => later) vs v = last vs v.
Proof.
  revert v; induction vs as [ | w vs IH]; intros v; [reflexivity | ].
  simpl fold_left; rewrite IH.
  destruct vs as [ | x vs]; [reflexivity | ].
  change (last (x :: vs) w = last (x :: vs) v).
  apply last_nonempty_default.
Qed.

End PolicyFacts.

(** C3: under [REPLACE_THEN_ADD], merging a record into a dense
    destination stores the incoming value when the value already in the
    cell is none for [isnone] with the given [zero_nan], and the sum of the
    two otherwise; no other cell changes. *)
Theorem replace_then_add_dense :
  forall (V : Type) (NV : NumT V) (AV : Additive V)
         (zero_nan : bool) (d : Dense) (r : CooRecord V),
    dense_merge spsparse.REPLACE_THEN_ADD zero_nan d r (index r) =
      (if spsparse.isnone (d (index r)) zero_nan
       then val r
       else num_add (d (index r)) (val r)) /\
    (forall c : list int,
        c <> index r ->
        dense_merge spsparse.REPLACE_THEN_ADD zero_nan d r c = d c).
Proof.
  intros V NV AV zero_nan d r; split.
  - unfold dense_merge, dense_set; now rewrite index_eqb_refl.
  - intros c Hc; unfold dense_merge, dense_set.
    destruct (index_eqb c (index r)) eqn:E; [ | reflexivity].
    apply index_eqb_eq in E; contradiction.
Qed.

Example dense_doubles_merge :
  dense_merge spsparse.REPLACE_THEN_ADD true dense_example
              (mkCoo [0; 0] dbl_3) [0; 0] = dbl_3 /\
  dense_merge spsparse.REPLACE_THEN_ADD true dense_example
              (mkCoo [0; 1] dbl_3) [0; 1] = dbl_3 /\
  dense_merge spsparse.REPLACE_THEN_ADD true dense_example
              (mkCoo [1; 1] dbl_3) [1; 1] = dbl_7 /\
  dense_merge spsparse.REPLACE_THEN_ADD false dense_example
              (mkCoo [0; 0] dbl_3) [0; 0] = NaN /\
  dense_merge spsparse.REPLACE_THEN_ADD false dense_example
              (mkCoo [0; 1] dbl_3) [0; 1] = dbl_3.
Proof. repeat split; vm_compute; reflexivity. Qed.

(** With [zero_nan] set, the rule of the specification and the wording of
    the header agree on doubles: the stored values are identical, or are
    zeros that differ in sign only. *)
Lemma replace_then_add_doc_agrees (existing incoming : double) :
  let stored :=
    dense_combine spsparse.REPLACE_THEN_ADD true existing incoming in
  let documented := spsparse.replace_then_add_doc existing incoming in
  stored = documented \/ double_eq stored documented = true.
Proof.
  unfold dense_combine, spsparse.replace_then_add_doc, spsparse.isnone,
    num_isnan, num_eq0, num_add, NumT_double, Additive_double.
  change (double_of_int 0) with (S754_zero false).
  destruct existing as [s | s | | s m e].
  - destruct incoming as [s' | s' | | s' m' e'];
      try (left; reflexivity).
    destruct s, s'; (left; reflexivity) || (right; reflexivity).
  - destruct s; left; reflexivity.
  - left; reflexivity.
  - destruct s; left; reflexivity.
Qed.

(** With [zero_nan] clear they differ when the cell holds a NaN: the
    specification adds, the header's wording replaces. *)
Example replace_then_add_doc_differs :
  dense_combine spsparse.REPLACE_THEN_ADD false NaN dbl_3 = NaN /\
  spsparse.replace_then_add_doc NaN dbl_3 = dbl_3.
Proof. split; reflexivity. Qed.

(** C4: when [consolidate()] merges the records of an array that share
    the coordinate tuple [c], the one record it returns at [c] holds, under
    [LEAVE_ALONE], the first value met at [c]; under [ADD], the sum of all
    the values met at [c], taken in the order met; under [REPLACE], the
    last value met at [c].  The array may be given in any order; its
    records have index tuples of one rank. *)
Theorem consolidate_duplicate_policies
    (V : Type) (NV : NumT V) (AV : Additive V)
    (arr : list (CooRecord V)) (c : list int) (v : V) (vs : list V)
    (zero_nan : bool)
    (Hrank : uniform_rank arr = true)
    (Hc : values_at c arr = v :: vs) :
  (exists out,
      consolidate arr spsparse.LEAVE_ALONE zero_nan false = inr out /\
      values_at c out = [v]) /\
  (exists out,
      consolidate arr spsparse.ADD zero_nan false = inr out /\
      values_at c out = [fold_left num_add vs v]) /\
  (exists out,
      consolidate arr spsparse.REPLACE zero_nan false = inr out /\
      values_at c out = [last vs v]).
Proof.
  split; [ | split].
  - destruct (consolidate_values spsparse.LEAVE_ALONE _ arr c zero_nan
                eq_refl Hrank) as [out [E R]].
    rewrite Hc in R; simpl in R; rewrite fold_left_keep_first in R.
    exists out; split; assumption.
  - destruct (consolidate_values spsparse.ADD _ arr c zero_nan
                eq_refl Hrank) as [out [E R]].
    rewrite Hc in R.
    exists out; split; assumption.
  - destruct (consolidate_values spsparse.REPLACE _ arr c zero_nan
                eq_refl Hrank) as [out [E R]].
    rewrite Hc in R; simpl in R; rewrite fold_left_keep_last in R.
    exists out; split; assumption.
Qed.

Lemma consolidate_duplicate_policies_witness :
  (uniform_rank unsorted_example = true /\
   values_at [1; 1] unsorted_example = [dbl_3; dbl_4]) /\
  (exists out,
      consolidate unsorted_example spsparse.LEAVE_ALONE false false =
        inr out /\
      values_at [1; 1] out = [dbl_3]) /\
  (exists out,
      consolidate unsorted_example spsparse.ADD false false = inr out /\
      values_at [1; 1] out = [dbl_7]) /\
  (exists out,
      consolidate unsorted_example spsparse.REPLACE false false = inr out /\
      values_at [1; 1] out = [dbl_4]).
Proof.
  assert (Hrank : uniform_rank unsorted_example = true) by reflexivity.
  assert (Hc : values_at [1; 1] unsorted_example = [dbl_3; dbl_4])
    by reflexivity.
  split; [split; assumption | ].
  exact (consolidate_duplicate_policies double _ _ unsorted_example [1; 1]
           dbl_3 [dbl_4] false Hrank Hc).
Defined.

(** The example of the specification, two records at (1,1) with values
    3.0 and 4.0, and an array that is not sorted: the whole output. *)
Example consolidate_examples :
  consolidate dup_example spsparse.ADD false false =
    inr [mkCoo [1; 1] dbl_7] /\
  consolidate dup_example spsparse.LEAVE_ALONE false false =
    inr [mkCoo [1; 1] dbl_3] /\
  consolidate dup_example spsparse.REPLACE false false =
    inr [mkCoo [1; 1] dbl_4] /\
  consolidate unsorted_example spsparse.ADD false false =
    inr [mkCoo [0; 0] dbl_5; mkCoo [1; 1] dbl_7] /\
  consolidate unsorted_example spsparse.LEAVE_ALONE false false =
    inr [mkCoo [0; 0] dbl_5; mkCoo [1; 1] dbl_3] /\
  consolidate unsorted_example spsparse.REPLACE false false =
    inr [mkCoo [0; 0] dbl_5; mkCoo [1; 1] dbl_4].
Proof. repeat split; vm_compute; reflexivity. Qed.

(* ----------------------------------------------------------------- *)
(** ** Writing an array to a stream *)

Lemma string_app_assoc (s1 s2 s3 : string) :
  ((s1 ++ s2) ++ s3 = s1 ++ (s2 ++ s3))%string.
Proof.
  induction s1 as [ | ch s1 IH]; simpl; [reflexivity | now rewrite IH].
Qed.

Lemma read_app_length {T : Type} (pre : list T) (x : T) (post : list T) :
  read (pre ++ x :: post) (Z.of_nat (List.length pre)) = Some x.
Proof.
  unfold read.
  destruct (Z.ltb_spec (Z.of_nat (List.length pre)) 0) as [Hneg | _];
    [lia | ].
  rewrite Nat2Z.id, nth_error_app2 by apply Nat.le_refl.
  now rewrite Nat.sub_diag.
Qed.

Lemma read_Some_lt {T : Type} (a : list T) (k : int) (x : T) :
  read a k = Some x -> 0 <= k < Z.of_nat (List.length a).
Proof.
  unfold read; destruct (Z.ltb_spec k 0) as [Hneg | Hk]; [discriminate | ].
  intros E.
  assert (Hlt : (Z.to_nat k < List.length a)%nat)
    by (apply nth_error_Some; congruence).
  lia.
Qed.

Section StreamFacts.

Context {T : Type} {IT : Insertable T}.

(** The loop entered at [k = length pre] with the elements [x :: xs]
    still to write runs [length (x :: xs)] times and writes them,
    separated by [", "]. *)
Lemma stream_loop_writes (post : list T) :
  forall (xs pre : list T) (x : T) (fuel : nat) (os : ostream),
    Z.of_nat (List.length (pre ++ x :: xs)) <= INT_MAX ->
    (List.length xs < fuel)%nat ->
    stream_loop fuel os (pre ++ (x :: xs) ++ post)
                (Z.of_nat (List.length (pre ++ x :: xs)))
                (Z.of_nat (List.length pre)) =
    Returns (os << String.concat ", " (map text_of (x :: xs))).
Proof.
  induction xs as [ | y ys IH]; intros pre x fuel os Hmax Hfuel;
    (destruct fuel as [ | fuel]; [inversion Hfuel | ]);
    simpl stream_loop;
    change ((x :: ?l) ++ post) with (x :: l ++ post);
    rewrite read_app_length;
    rewrite length_app in Hmax; simpl List.length in Hmax;
    (destruct (Z.eqb_spec (Z.of_nat (List.length pre)) INT_MAX)
      as [Heq | _]; [lia | ]).
  - rewrite length_app; simpl List.length.
    destruct (Z.eqb_spec (Z.of_nat (List.length pre) + 1)
                         (Z.of_nat (List.length pre + 1))) as [_ | Hne];
      [reflexivity | lia].
  - rewrite length_app; simpl List.length.
    destruct (Z.eqb_spec (Z.of_nat (List.length pre) + 1)
                         (Z.of_nat (List.length pre + S (S (List.length ys)))))
      as [Heq | _]; [lia | ].
    specialize (IH (pre ++ [x]) y fuel (os << text_of x << ", ")).
    rewrite !length_app in IH; simpl List.length in IH.
    replace ((pre ++ [x]) ++ (y :: ys) ++ post) with
      (pre ++ x :: y :: ys ++ post) in IH
      by (now rewrite <- app_assoc).
    replace (Z.of_nat (List.length pre + 1)) with
      (Z.of_nat (List.length pre) + 1) in IH by lia.
    replace (List.length pre + 1 + S (List.length ys))%nat with
      (List.length pre + S (S (List.length ys)))%nat in IH by lia.
    rewrite IH by (simpl in Hfuel; lia).
    unfold put; simpl String.concat.
    now rewrite !string_app_assoc.
Qed.

(** With a negative [RANK] the loop is never left through [break]. *)
Lemma stream_loop_negative_rank (a : list T) (RANK : int) :
  RANK < 0 ->
  forall (fuel : nat) (os : ostream) (k : int) (s : ostream),
    0 <= k -> stream_loop fuel os a RANK k <> Returns s.
Proof.
  intros Hneg fuel; induction fuel as [ | fuel IH]; intros os k s Hk;
    simpl; [discriminate | ].
  destruct (read a k) as [x | ]; [ | discriminate].
  destruct (k =? INT_MAX); [discriminate | ].
  destruct (Z.eqb_spec (k + 1) RANK) as [Heq | _]; [lia | ].
  apply IH; lia.
Qed.

(** With a negative [RANK] and enough fuel the loop reads outside the
    array or overflows [k]. *)
Lemma stream_loop_negative_rank_undefined (a : list T) (RANK : int) :
  RANK < 0 ->
  forall (fuel : nat) (os : ostream) (k : int),
    0 <= k <= Z.of_nat (List.length a) ->
    Z.of_nat (List.length a) - k < Z.of_nat fuel ->
    stream_loop fuel os a RANK k = Undefined.
Proof.
  intros Hneg fuel; induction fuel as [ | fuel IH]; intros os k Hk Hfuel;
    simpl.
  - lia.
  - destruct (read a k) as [x | ] eqn:E; [ | reflexivity].
    apply read_Some_lt in E.
    destruct (k =? INT_MAX); [reflexivity | ].
    destruct (Z.eqb_spec (k + 1) RANK) as [Heq | _]; [lia | ].
    apply IH; lia.
Qed.

End StreamFacts.

(** C9: with [RANK == 0], [stream] writes exactly ["{}"] and reads no
    element of [a]: it returns the same for every array, in particular for
    a pointer with no readable element, where any read is undefined. *)
Theorem stream_rank_zero :
  forall (T : Type) (IT : Insertable T) (fuel : nat) (os : ostream),
    (forall a : list T, stream fuel os a 0 = Returns (os << "{}")) /\
    stream fuel os (@nil T) 0 = Returns (os << "{}") /\
    (forall (k : int), read (@nil T) k = None) /\
    (forall a : list T,
        stream fuel os a 0 = Returns (String.append os "{}")) /\
    (forall a : list T,
        stream fuel EmptyString a 0 = Returns "{}"%string) /\
    (forall a : list T,
        stream fuel "abc"%string a 0 = Returns "abc{}"%string) /\
    stream fuel "abc"%string (@nil T) 0 = Returns "abc{}"%string.
Proof.
  intros T IT fuel os.
  split; [reflexivity | split; [reflexivity | split]].
  - intros k; unfold read; destruct (k <? 0); [reflexivity | ].
    now destruct (Z.to_nat k).
  - repeat split.
Qed.

(** C10: for [1 <= RANK] and an array with at least [RANK] readable
    elements, [stream] terminates (any fuel of at least [RANK] loop
    iterations is enough) and returns the stream with ["{"], the elements
    [a[0]] to [a[RANK-1]] in index order separated by [", "], and ["}"]
    appended.  For a negative [RANK] the call never returns: [k == RANK]
    is never reached, and the loop runs into undefined behaviour. *)
Theorem stream_rank_positive
    (T : Type) (IT : Insertable T)
    (fuel : nat) (os : ostream) (a : list T) (RANK : int)
    (Hpos : 1 <= RANK)
    (Hint : RANK <= INT_MAX)
    (Hlen : RANK <= Z.of_nat (List.length a))
    (Hfuel : RANK <= Z.of_nat fuel) :
  stream fuel os a RANK =
    Returns (os << "{"
                << String.concat ", "
                     (map text_of (firstn (Z.to_nat RANK) a))
                << "}") /\
  (forall (fuel' : nat) (os' : ostream) (a' : list T) (RANK' : int),
      RANK' < 0 ->
      (forall s, stream fuel' os' a' RANK' <> Returns s) /\
      ((List.length a' < fuel')%nat ->
       stream fuel' os' a' RANK' = Undefined)).
Proof.
  split.
  - unfold stream.
    destruct (Z.eqb_spec RANK 0) as [E0 | _]; [lia | ].
    set (n := Z.to_nat RANK).
    assert (Hn : List.length (firstn n a) = n)
      by (apply firstn_length_le; lia).
    destruct (firstn n a) as [ | x xs] eqn:Hfirst; [simpl in Hn; lia | ].
    assert (Ha : a = [] ++ (x :: xs) ++ skipn n a)
      by (rewrite <- Hfirst; symmetry; apply firstn_skipn).
    assert (HR : RANK = Z.of_nat (List.length ([] ++ x :: xs)))
      by (simpl app; rewrite Hn; unfold n; lia).
    rewrite Ha at 1; rewrite HR at 1.
    change 0 with (Z.of_nat (List.length (@nil T))).
    rewrite stream_loop_writes; [reflexivity | lia | simpl in Hn; lia].
  - intros fuel' os' a' RANK' Hneg; unfold stream.
    destruct (Z.eqb_spec RANK' 0) as [E0 | _]; [lia | ].
    split.
    + intros s.
      destruct (stream_loop fuel' (os' << "{") a' RANK' 0) as [s' | | ] eqn:E;
        try discriminate.
      now apply stream_loop_negative_rank in E.
    + intros Hf.
      rewrite stream_loop_negative_rank_undefined; [reflexivity | lia | lia | lia].
Qed.

Lemma stream_rank_positive_witness :
  (1 <= 3 /\ 3 <= INT_MAX /\
   3 <= Z.of_nat (List.length [4; -5; 6; 7]) /\ 3 <= Z.of_nat 3) /\
  stream 3 "v = "%string [4; -5; 6; 7] 3 = Returns "v = {4, -5, 6}"%string /\
  stream 9 EmptyString [4; -5; 6; 7] (-1) = Undefined.
Proof.
  assert (Hpos : 1 <= 3) by lia.
  assert (Hint : 3 <= INT_MAX) by (unfold INT_MAX; lia).
  assert (Hlen : 3 <= Z.of_nat (List.length [4; -5; 6; 7])) by (simpl; lia).
  assert (Hfuel : 3 <= Z.of_nat 3) by lia.
  split; [repeat split; assumption | ].
  destruct (stream_rank_positive int _ 3 "v = "%string [4; -5; 6; 7] 3
              Hpos Hint Hlen Hfuel) as [Hret Hneg].
  split; [exact Hret | ].
  apply (Hneg 9%nat EmptyString [4; -5; 6; 7] (-1)); [lia | simpl; lia].
Defined.

(* ----------------------------------------------------------------- *)
(** ** More on [stream]: what it reads, when it returns, what it writes *)

Lemma string_app_nil_r (s : string) : (s ++ EmptyString)%string = s.
Proof. induction s as [ | c s IH]; simpl; [reflexivity | now rewrite IH]. Qed.

Lemma string_app_inv_head (s t1 t2 : string) :
  (s ++ t1 = s ++ t2)%string -> t1 = t2.
Proof.
  induction s as [ | c s IH]; simpl; intros E; [exact E | ].
  injection E as E; auto.
Qed.

Section StreamMore.

Context {T : Type} {IT : Insertable T}.

(** The loop only looks at the elements below [RANK]. *)
Lemma stream_loop_agree (a b : list T) (RANK : int) :
  (forall i, 0 <= i < RANK -> read a i = read b i) ->
  forall (fuel : nat) (os : ostream) (k : int),
    0 <= k < RANK ->
    stream_loop fuel os a RANK k = stream_loop fuel os b RANK k.
Proof.
  intros Hab fuel; induction fuel as [ | fuel IH]; intros os k Hk;
    simpl; [reflexivity | ].
  rewrite (Hab k Hk).
  destruct (read b k) as [x | ]; [ | reflexivity].
  destruct (k =? INT_MAX); [reflexivity | ].
  destruct (Z.eqb_spec (k + 1) RANK) as [_ | Hne]; [reflexivity | ].
  apply IH; lia.
Qed.

(** A loop that leaves through [break] stayed inside the array, did not
    overflow [k], and ran [RANK - k] times. *)
Lemma stream_loop_returns_inv (a : list T) (RANK : int) :
  forall (fuel : nat) (os : ostream) (k : int) (s : ostream),
    k <= INT_MAX ->
    stream_loop fuel os a RANK k = Returns s ->
    0 <= k < RANK /\
    RANK <= Z.of_nat (List.length a) /\
    RANK <= INT_MAX /\
    RANK - k <= Z.of_nat fuel.
Proof.
  intros fuel; induction fuel as [ | fuel IH]; intros os k s Hmax;
    simpl; [discriminate | ].
  destruct (read a k) as [x | ] eqn:E; [ | discriminate].
  apply read_Some_lt in E.
  destruct (Z.eqb_spec k INT_MAX) as [ | Hne]; [discriminate | ].
  destruct (Z.eqb_spec (k + 1) RANK) as [Heq | Hnr].
  - intros _; lia.
  - intros Hret; apply IH in Hret; lia.
Qed.

(** Left outside the index range the loop can stop at, it runs into
    undefined behaviour. *)
Lemma stream_loop_overrun (a : list T) (RANK : int) :
  forall (fuel : nat) (os : ostream) (k : int),
    0 <= k <= Z.of_nat (List.length a) ->
    ~ (k < RANK <= Z.of_nat (List.length a)) ->
    Z.of_nat (List.length a) - k < Z.of_nat fuel ->
    stream_loop fuel os a RANK k = Undefined.
Proof.
  intros fuel; induction fuel as [ | fuel IH]; intros os k Hk Hout Hfuel;
    simpl; [lia | ].
  destruct (read a k) as [x | ] eqn:E; [ | reflexivity].
  apply read_Some_lt in E.
  destruct (k =? INT_MAX); [reflexivity | ].
  destruct (Z.eqb_spec (k + 1) RANK) as [Heq | _]; [lia | ].
  apply IH; lia.
Qed.

(** What the loop appends does not depend on what the stream holds. *)
Lemma stream_loop_prefix (a : list T) (RANK : int) (os : ostream) :
  forall (fuel : nat) (u : ostream) (k : int),
    stream_loop fuel (os << u) a RANK k =
    outcome_map (fun t => os << t) (stream_loop fuel u a RANK k).
Proof.
  intros fuel; induction fuel as [ | fuel IH]; intros u k; simpl;
    [reflexivity | ].
  destruct (read a k) as [x | ]; [ | reflexivity].
  destruct (k =? INT_MAX); [reflexivity | ].
  destruct (k + 1 =? RANK).
  - simpl; unfold put; now rewrite string_app_assoc.
  - rewrite <- IH; unfold put; now rewrite !string_app_assoc.
Qed.

(** The text of a returning call, for a positive [RANK]. *)
Lemma stream_returns_text (fuel : nat) (os : ostream) (a : list T)
    (RANK : int) :
  1 <= RANK <= INT_MAX ->
  RANK <= Z.of_nat (List.length a) ->
  RANK <= Z.of_nat fuel ->
  stream fuel os a RANK =
  Returns (os << "{"
              << String.concat ", " (map text_of (firstn (Z.to_nat RANK) a))
              << "}").
Proof.
  intros [Hpos Hint] Hlen Hfuel; unfold stream.
  destruct (Z.eqb_spec RANK 0) as [E0 | _]; [lia | ].
  set (n := Z.to_nat RANK).
  assert (Hn : List.length (firstn n a) = n)
    by (apply firstn_length_le; lia).
  destruct (firstn n a) as [ | x xs] eqn:Hfirst; [simpl in Hn; lia | ].
  assert (Ha : a = [] ++ (x :: xs) ++ skipn n a)
    by (rewrite <- Hfirst; symmetry; apply firstn_skipn).
  assert (HR : RANK = Z.of_nat (List.length ([] ++ x :: xs)))
    by (simpl app; rewrite Hn; unfold n; lia).
  rewrite Ha at 1; rewrite HR at 1.
  change 0 with (Z.of_nat (List.length (@nil T))).
  rewrite stream_loop_writes; [reflexivity | lia | simpl in Hn; lia].
Qed.

(** Every returning call had [0 <= RANK <= length a] and wrote the first
    [RANK] elements between braces. *)
Lemma stream_returns_inv (fuel : nat) (os : ostream) (a : list T)
    (RANK : int) (s : ostream) :
  stream fuel os a RANK = Returns s ->
  0 <= RANK <= Z.of_nat (List.length a) /\
  RANK <= INT_MAX /\
  s = os << "{"
         << String.concat ", " (map text_of (firstn (Z.to_nat RANK) a))
         << "}".
Proof.
  intros Hret.
  destruct (Z.eq_dec RANK 0) as [-> | Hnz].
  - unfold stream in Hret; simpl in Hret; injection Hret as <-.
    split; [lia | split; [unfold INT_MAX; lia | ]].
    simpl; unfold put; now rewrite !string_app_assoc.
  - assert (Hloop : exists s', stream_loop fuel (os << "{") a RANK 0 =
                               Returns s').
    { unfold stream in Hret.
      destruct (Z.eqb_spec RANK 0) as [E0 | _]; [contradiction | ].
      destruct (stream_loop fuel (os << "{") a RANK 0) as [s' | | ];
        try discriminate.
      now exists s'. }
    destruct Hloop as [s' Hloop].
    apply stream_loop_returns_inv in Hloop; [ | unfold INT_MAX; lia].
    destruct Hloop as [Hk [Hlen [Hint Hfuel]]].
    rewrite stream_returns_text in Hret by lia.
    injection Hret as <-.
    repeat split; lia.
Qed.

End StreamMore.

(** X1: [stream] reads only [a[0]] to [a[RANK-1]]: for [RANK >= 0], two
    arrays that agree at the indices below [RANK] give the same outcome,
    whatever lies (or cannot be read) at [RANK] and beyond. *)
Theorem stream_reads_below_rank
    (T : Type) (IT : Insertable T)
    (fuel : nat) (os : ostream) (a b : list T) (RANK : int)
    (Hrank : 0 <= RANK)
    (Hagree : forall i, 0 <= i < RANK -> read a i = read b i) :
  stream fuel os a RANK = stream fuel os b RANK.
Proof.
  unfold stream.
  destruct (Z.eqb_spec RANK 0) as [E0 | Hnz]; [reflexivity | ].
  rewrite (stream_loop_agree a b RANK Hagree) by lia.
  reflexivity.
Qed.

Lemma stream_reads_below_rank_witness :
  (0 <= 2 /\
   forall i, 0 <= i < 2 -> read [4; -5; 6] i = read [4; -5] i) /\
  stream 2 "t"%string [4; -5; 6] 2 = stream 2 "t"%string [4; -5] 2.
Proof.
  assert (Hrank : 0 <= 2) by lia.
  assert (Hagree : forall i, 0 <= i < 2 ->
                             read [4; -5; 6] i = read [4; -5] i).
  { intros i Hi.
    assert (Hcases : i = 0 \/ i = 1) by lia.
    destruct Hcases as [-> | ->]; reflexivity. }
  split; [split; assumption | ].
  apply (stream_reads_below_rank int _ 2 "t"%string [4; -5; 6] [4; -5] 2
           Hrank Hagree).
Defined.

(** X2: for a [RANK] that is an [int], [stream] returns exactly when
    [0 <= RANK <= ] the number of readable elements, and what it then
    returns is always the stream with ["{"], the first [RANK] elements
    separated by [", "], and ["}"] appended (["{}"] for rank 0). *)
Theorem stream_returns_iff
    (T : Type) (IT : Insertable T)
    (os : ostream) (a : list T) (RANK : int) (s : ostream)
    (Hint : in_int RANK) :
  (exists fuel, stream fuel os a RANK = Returns s) <->
  (0 <= RANK <= Z.of_nat (List.length a) /\
   s = os << "{"
          << String.concat ", " (map text_of (firstn (Z.to_nat RANK) a))
          << "}").
Proof.
  split.
  - intros [fuel Hret]; apply stream_returns_inv in Hret; tauto.
  - intros [Hrank ->]; exists (Z.to_nat RANK).
    destruct (Z.eq_dec RANK 0) as [-> | Hnz].
    + unfold stream; simpl; unfold put; now rewrite !string_app_assoc.
    + destruct Hint as [_ Hmax].
      apply stream_returns_text; lia.
Qed.

Lemma stream_returns_iff_witness :
  in_int 2 /\
  ((exists fuel, stream fuel "t"%string [4; -5; 6] 2 = Returns "t{4, -5}"%string) <->
   (0 <= 2 <= Z.of_nat (List.length [4; -5; 6]) /\
    "t{4, -5}"%string =
    "t"%string << "{"
        << String.concat ", " (map text_of (firstn (Z.to_nat 2) [4; -5; 6]))
        << "}")).
Proof.
  assert (Hint : in_int 2) by (unfold in_int, INT_MIN, INT_MAX; lia).
  split; [exact Hint | ].
  apply (stream_returns_iff int _ "t"%string [4; -5; 6] 2 "t{4, -5}"%string
           Hint).
Defined.

(** X3: when [RANK] exceeds the number of readable elements, [stream]
    reads past the end of the array: with fuel for more iterations than
    there are elements, the outcome is undefined behaviour. *)
Theorem stream_too_few_elements
    (T : Type) (IT : Insertable T)
    (fuel : nat) (os : ostream) (a : list T) (RANK : int)
    (Hshort : Z.of_nat (List.length a) < RANK)
    (Hfuel : (List.length a < fuel)%nat) :
  stream fuel os a RANK = Undefined.
Proof.
  unfold stream.
  destruct (Z.eqb_spec RANK 0) as [E0 | _]; [lia | ].
  rewrite stream_loop_overrun; [reflexivity | lia | lia | lia].
Qed.

Lemma stream_too_few_elements_witness :
  (Z.of_nat (List.length [4; -5]) < 3 /\
   (List.length ([4; -5]%Z : list int) < 3)%nat) /\
  stream 3 "t"%string [4; -5] 3 = Undefined.
Proof.
  assert (Hshort : Z.of_nat (List.length [4; -5]) < 3) by (simpl; lia).
  assert (Hfuel : (List.length ([4; -5]%Z : list int) < 3)%nat)
    by (simpl; lia).
  split; [split; assumption | ].
  apply (stream_too_few_elements int _ 3 "t"%string [4; -5] 3 Hshort Hfuel).
Defined.

(** X4: [stream] only appends: whatever the stream already holds stays in
    front unchanged, and the outcome and the text appended are those of
    the same call on an empty stream. *)
Theorem stream_appends :
  forall (T : Type) (IT : Insertable T)
         (fuel : nat) (os : ostream) (a : list T) (RANK : int),
    stream fuel os a RANK =
    outcome_map (fun t => os << t) (stream fuel EmptyString a RANK).
Proof.
  intros T IT fuel os a RANK; unfold stream.
  destruct (RANK =? 0); [reflexivity | ].
  change (EmptyString << "{") with "{"%string.
  rewrite (stream_loop_prefix a RANK os fuel "{"%string 0).
  destruct (stream_loop fuel "{"%string a RANK 0) as [s | | ]; simpl;
    try reflexivity.
  unfold put; now rewrite string_app_assoc.
Qed.

(* ----------------------------------------------------------------- *)
(** ** The text written for an [int] array identifies the array *)

(** Texts free of punctuation, each followed by punctuation, can be told
    apart. *)
Lemma split_unique (s1 s2 t1 t2 : string) :
  no_punct s1 = true -> no_punct s2 = true ->
  starts_punct t1 = true -> starts_punct t2 = true ->
  (s1 ++ t1 = s2 ++ t2)%string ->
  s1 = s2 /\ t1 = t2.
Proof.
  revert s2; induction s1 as [ | c s1 IH]; intros [ | d s2] N1 N2 P1 P2 E;
    simpl in *.
  - now split.
  - subst t1; simpl in P1.
    apply andb_true_iff in N2; destruct N2 as [N2 _].
    rewrite P1 in N2; discriminate.
  - subst t2; simpl in P2.
    apply andb_true_iff in N1; destruct N1 as [N1 _].
    rewrite P2 in N1; discriminate.
  - injection E as -> E.
    apply andb_true_iff in N1; destruct N1 as [_ N1].
    apply andb_true_iff in N2; destruct N2 as [_ N2].
    destruct (IH s2 N1 N2 P1 P2 E) as [-> ->]; now split.
Qed.

Lemma rest_text_starts_punct (xs : list string) :
  starts_punct (rest_text xs) = true.
Proof. destruct xs; reflexivity. Qed.

Lemma concat_rest_text (xs : list string) (x : string) :
  (String.concat ", " (x :: xs) ++ "}" = x ++ rest_text xs)%string.
Proof.
  revert x; induction xs as [ | y ys IH]; intros x; [reflexivity | ].
  change (String.concat ", " (x :: y :: ys))
    with (x ++ ", " ++ String.concat ", " (y :: ys))%string.
  rewrite !string_app_assoc, IH; reflexivity.
Qed.

Lemma rest_text_inj (xs : list string) :
  forall ys,
    (forall x, In x xs -> no_punct x = true) ->
    (forall y, In y ys -> no_punct y = true) ->
    rest_text xs = rest_text ys -> xs = ys.
Proof.
  induction xs as [ | x xs IH]; intros [ | y ys] Hx Hy E; simpl in E;
    try reflexivity; try discriminate.
  injection E as E.
  destruct (split_unique x y (rest_text xs) (rest_text ys)) as [-> E'];
    auto using rest_text_starts_punct, in_eq.
  f_equal; apply IH; auto using in_cons.
Qed.

(** Braced lists of non-empty, punctuation-free texts are equal only when
    the lists are. *)
Lemma concat_brace_inj (xs ys : list string) :
  (forall x, In x xs -> no_punct x = true /\ x <> EmptyString) ->
  (forall y, In y ys -> no_punct y = true /\ y <> EmptyString) ->
  (String.concat ", " xs ++ "}" = String.concat ", " ys ++ "}")%string ->
  xs = ys.
Proof.
  intros Hx Hy E.
  destruct xs as [ | x xs], ys as [ | y ys]; [reflexivity | | | ].
  - rewrite concat_rest_text in E.
    destruct (split_unique EmptyString y "}" (rest_text ys)) as [Hy0 _];
      auto using rest_text_starts_punct.
    + apply Hy, in_eq.
    + destruct (Hy y (in_eq _ _)) as [_ Hne]; now elim Hne.
  - rewrite concat_rest_text in E.
    destruct (split_unique x EmptyString (rest_text xs) "}") as [Hx0 _];
      auto using rest_text_starts_punct.
    + apply Hx, in_eq.
    + destruct (Hx x (in_eq _ _)) as [_ Hne]; now elim Hne.
  - rewrite !concat_rest_text in E.
    destruct (split_unique x y (rest_text xs) (rest_text ys)) as [-> E'];
      auto using rest_text_starts_punct.
    + apply Hx, in_eq.
    + apply Hy, in_eq.
    + f_equal; apply rest_text_inj; auto.
      * intros x' Hin; apply Hx, in_cons, Hin.
      * intros y' Hin; apply Hy, in_cons, Hin.
Qed.

(** The decimal text of an integer: digits after an optional sign. *)
Lemma uint_text_no_punct (d : Decimal.uint) :
  no_punct (NilEmpty.string_of_uint d) = true.
Proof. induction d; simpl; auto. Qed.

Lemma int_text_plain (n : int) :
  no_punct (text_of n) = true /\ text_of n <> EmptyString.
Proof.
  unfold text_of, Insertable_int, NilZero.string_of_int.
  destruct (Z.to_int n) as [d | d]; unfold NilZero.string_of_uint.
  - destruct d; (split; [ | discriminate]);
      solve [reflexivity | apply (uint_text_no_punct (_ _))].
  - destruct d; (split; [ | discriminate]);
      solve [reflexivity | apply (uint_text_no_punct (Decimal.D0 _))
                         | simpl; apply (uint_text_no_punct _)].
Qed.

Lemma to_int_parses (n : int) :
  NilZero.int_of_string (text_of n) = Some (Z.to_int n).
Proof.
  unfold text_of, Insertable_int; apply NilZero.isi;
    destruct n as [ | p | p]; simpl; try discriminate;
    intros E; injection E as E;
    now apply DecimalPos.Unsigned.to_uint_nonnil in E.
Qed.

Lemma int_text_inj (n m : int) : text_of n = text_of m -> n = m.
Proof.
  intros E; apply DecimalZ.to_int_inj.
  assert (E' : Some (Z.to_int n) = Some (Z.to_int m))
    by (rewrite <- !to_int_parses; now rewrite E).
  now injection E'.
Qed.

Lemma map_text_inj (l1 l2 : list int) :
  map text_of l1 = map text_of l2 -> l1 = l2.
Proof.
  revert l2; induction l1 as [ | x l1 IH]; intros [ | y l2] E;
    try reflexivity; try discriminate.
  simpl in E; injection E as Exy E.
  f_equal; [now apply int_text_inj | now apply IH].
Qed.

(** X5: the text [stream] writes for an array of [int] identifies the
    rank and the elements written: two returning calls on the same stream
    that leave the same text were made with the same [RANK] and with
    arrays equal on their first [RANK] elements. *)
Theorem stream_int_unambiguous
    (fuel1 fuel2 : nat) (os : ostream) (a b : list int) (R1 R2 : int)
    (s : ostream)
    (Ha : stream fuel1 os a R1 = Returns s)
    (Hb : stream fuel2 os b R2 = Returns s) :
  R1 = R2 /\ firstn (Z.to_nat R1) a = firstn (Z.to_nat R2) b.
Proof.
  apply stream_returns_inv in Ha; destruct Ha as [Hr1 [_ Hs1]].
  apply stream_returns_inv in Hb; destruct Hb as [Hr2 [_ Hs2]].
  rewrite Hs1 in Hs2; unfold put in Hs2.
  rewrite !string_app_assoc in Hs2.
  do 2 apply string_app_inv_head in Hs2.
  apply concat_brace_inj in Hs2.
  - apply map_text_inj in Hs2.
    split; [ | exact Hs2].
    apply (f_equal (@List.length int)) in Hs2.
    rewrite !firstn_length_le in Hs2 by lia.
    lia.
  - intros x Hin; apply in_map_iff in Hin; destruct Hin as [n [<- _]].
    apply int_text_plain.
  - intros y Hin; apply in_map_iff in Hin; destruct Hin as [n [<- _]].
    apply int_text_plain.
Qed.

Lemma stream_int_unambiguous_witness :
  (stream 2 "t"%string [4; -5; 6] 2 = Returns "t{4, -5}"%string /\
   stream 7 "t"%string [4; -5] 2 = Returns "t{4, -5}"%string) /\
  2 = 2 /\
  firstn (Z.to_nat 2) [4; -5; 6] = firstn (Z.to_nat 2) [4; -5].
Proof.
  assert (Ha : stream 2 "t"%string [4; -5; 6] 2 = Returns "t{4, -5}"%string)
    by reflexivity.
  assert (Hb : stream 7 "t"%string [4; -5] 2 = Returns "t{4, -5}"%string)
    by reflexivity.
  split; [split; assumption | ].
  apply (stream_int_unambiguous 2 7 "t"%string [4; -5; 6] [4; -5] 2 2
           "t{4, -5}"%string Ha Hb).
Defined.

(* ----------------------------------------------------------------- *)
(** ** More on [isnone]: the flag, signs, conversions and sums *)

Section ExactConversion.

Lemma digits2_pos_size (p : positive) : digits2_pos p = Pos.size p.
Proof. induction p; simpl; congruence. Qed.

Lemma digits2_pos_bound (p : positive) (k : Z) :
  0 <= k -> Zpos p < 2 ^ k -> Zpos (digits2_pos p) <= k.
Proof.
  intros Hk Hp; rewrite digits2_pos_size.
  assert (H2 : 2 ^ Zpos (Pos.size p) <= 2 * Zpos p).
  { rewrite <- Pos2Z.inj_pow; change (2 * Zpos p) with (Zpos (p~0)).
    exact (Pos.size_le p). }
  destruct (Z.le_gt_cases (Zpos (Pos.size p)) k) as [ | Hgt]; [assumption | ].
  assert (Hpow : 2 ^ (k + 1) <= 2 ^ Zpos (Pos.size p))
    by (apply Z.pow_le_mono_r; lia).
  rewrite Z.pow_add_r in Hpow by lia; lia.
Qed.

Lemma digits2_pos_iter_xO (d p : positive) :
  digits2_pos (Pos.iter xO p d) = (digits2_pos p + d)%positive.
Proof.
  induction d as [ | d IH] using Pos.peano_ind.
  - simpl; lia.
  - rewrite Pos.iter_succ; simpl; rewrite IH; lia.
Qed.

(** A mantissa of exactly 53 bits in the exponent range is not rounded. *)
Lemma binary_round_aux_exact (s : bool) (m : positive) (e : Z) :
  Zpos (digits2_pos m) = 53 -> -1074 <= e <= 971 ->
  binary_round_aux dbl_prec dbl_emax s (Zpos m) e loc_Exact =
  S754_finite s m e.
Proof.
  intros Hd He; unfold dbl_prec, dbl_emax.
  assert (Hshift : fexp 53 1024 (Zdigits2 (Zpos m) + e) - e = 0).
  { unfold fexp, emin; simpl Zdigits2; rewrite Hd; lia. }
  unfold binary_round_aux, shr_fexp.
  rewrite Hshift; simpl shr; cbv iota beta.
  simpl shr_m; simpl round_nearest_even; rewrite Hshift; simpl.
  destruct (Z.leb_spec e 971); [reflexivity | lia].
Qed.

(** An integer below [2^53] in magnitude converts to a finite double. *)
Lemma binary_round_small (s : bool) (p : positive) :
  Zpos p < 2 ^ 53 ->
  exists m e, binary_round dbl_prec dbl_emax s p 0 = S754_finite s m e.
Proof.
  intros Hp.
  pose proof (digits2_pos_bound p 53 ltac:(lia) Hp) as Hdg.
  unfold binary_round.
  assert (Hf : fexp dbl_prec dbl_emax (Zpos (digits2_pos p) + 0) =
               Zpos (digits2_pos p) - 53)
    by (unfold fexp, emin, dbl_prec, dbl_emax; lia).
  rewrite Hf; unfold shl_align.
  destruct (Zpos (digits2_pos p) - 53 - 0) as [ | q | q] eqn:Eq.
  - exists p, 0; apply binary_round_aux_exact; lia.
  - lia.
  - eexists _, _; apply binary_round_aux_exact; [ | lia].
    rewrite digits2_pos_iter_xO; lia.
Qed.

Lemma double_of_int_nonzero (n : int) :
  n <> 0 -> Z.abs n < 2 ^ 53 ->
  exists s m e, double_of_int n = S754_finite s m e.
Proof.
  intros Hnz Hn; destruct n as [ | p | p]; [contradiction | | ];
    unfold double_of_int, binary_normalize.
  - exists false; apply binary_round_small; exact Hn.
  - exists true; apply binary_round_small; exact Hn.
Qed.

End ExactConversion.

(** X6: the [zero_nan] flag only widens the class of none values, and it
    matters for NaN alone: on doubles the two settings differ exactly at
    NaN, and on integers the flag has no effect at all. *)
Theorem isnone_flag_effect :
  (forall (T : Type) (NT : NumT T) (n : T),
      implb (spsparse.isnone n false) (spsparse.isnone n true) = true) /\
  (forall n : double,
      spsparse.isnone n true = spsparse.isnone n false <-> n <> S754_nan) /\
  (forall (n : int) (z : bool),
      spsparse.isnone n z = spsparse.isnone n false).
Proof.
  split; [ | split].
  - intros T NT n; unfold spsparse.isnone.
    destruct (num_eq0 n); [now rewrite orb_true_r | reflexivity].
  - intros n; unfold spsparse.isnone, num_isnan, num_eq0, NumT_double.
    destruct n as [s | s | | s m e]; simpl; split; intros E;
      try reflexivity; try discriminate; try (now elim E).
  - intros n [ | ]; [ | reflexivity].
    unfold spsparse.isnone, num_isnan, num_eq0, NumT_int.
    now rewrite int_isnan_false.
Qed.

(** X7: [isnone] does not look at the sign: [-x] is none exactly when [x]
    is, so [-0.0] is classified like [0.0]. *)
Theorem isnone_neg :
  forall (x : double) (zero_nan : bool),
    spsparse.isnone (double_neg x) zero_nan = spsparse.isnone x zero_nan.
Proof.
  intros x zero_nan.
  unfold spsparse.isnone, num_isnan, num_eq0, NumT_double, double_neg.
  change (double_of_int 0) with (S754_zero false).
  destruct x as [s | s | | s m e], zero_nan; try reflexivity;
    destruct s; reflexivity.
Qed.

(** X8: classifying an [int] and classifying its conversion to [double]
    give the same answer, for either setting of the flag. *)
Theorem isnone_int_as_double
    (n : int) (zero_nan : bool) (Hn : in_int n) :
  spsparse.isnone (double_of_int n) zero_nan = spsparse.isnone n zero_nan.
Proof.
  destruct (Z.eq_dec n 0) as [-> | Hnz]; [destruct zero_nan; reflexivity | ].
  destruct (double_of_int_nonzero n Hnz) as [s [m [e E]]].
  { unfold in_int, INT_MIN, INT_MAX in Hn.
    assert (Hpow : 2 ^ 32 <= 2 ^ 53) by (apply Z.pow_le_mono_r; lia).
    change (2 ^ 32) with 4294967296 in Hpow; lia. }
  unfold spsparse.isnone, num_isnan, num_eq0, NumT_int, NumT_double.
  rewrite E; change (double_of_int 0) with (S754_zero false).
  apply Z.eqb_neq in Hnz; rewrite Hnz.
  destruct zero_nan, s; reflexivity.
Qed.

Lemma isnone_int_as_double_witness :
  in_int (-7) /\
  spsparse.isnone (double_of_int (-7)) true = spsparse.isnone (-7 : int) true.
Proof.
  assert (Hn : in_int (-7)) by (unfold in_int, INT_MIN, INT_MAX; lia).
  split; [exact Hn | ].
  apply (isnone_int_as_double (-7) true Hn).
Defined.

(** X9: adding a zero, on either side, never changes whether a double is
    none. *)
Theorem isnone_add_zero
    (x zero : double) (zero_nan : bool)
    (Hzero : spsparse.isnone zero false = true) :
  spsparse.isnone (double_add x zero) zero_nan =
    spsparse.isnone x zero_nan /\
  spsparse.isnone (double_add zero x) zero_nan =
    spsparse.isnone x zero_nan.
Proof.
  apply isnone_double_false_iff in Hzero; destruct Hzero as [sz ->].
  unfold spsparse.isnone, num_isnan, num_eq0, NumT_double.
  change (double_of_int 0) with (S754_zero false).
  destruct x as [s | s | | s m e], zero_nan;
    try destruct s; destruct sz; split; reflexivity.
Qed.

Lemma isnone_add_zero_witness :
  spsparse.isnone dbl_neg0 false = true /\
  spsparse.isnone (double_add dbl_5 dbl_neg0) true =
    spsparse.isnone dbl_5 true /\
  spsparse.isnone (double_add dbl_neg0 dbl_5) true =
    spsparse.isnone dbl_5 true.
Proof.
  assert (Hzero : spsparse.isnone dbl_neg0 false = true) by reflexivity.
  split; [exact Hzero | ].
  apply (isnone_add_zero dbl_5 dbl_neg0 true Hzero).
Defined.

(** X10: the sum of two none values is none, for either setting of the
    flag: zeros add to a zero, and a NaN operand gives a NaN. *)
Theorem isnone_add_closed
    (a b : double) (zero_nan : bool)
    (Ha : spsparse.isnone a zero_nan = true)
    (Hb : spsparse.isnone b zero_nan = true) :
  spsparse.isnone (double_add a b) zero_nan = true.
Proof.
  revert Ha Hb.
  unfold spsparse.isnone, num_isnan, num_eq0, NumT_double.
  change (double_of_int 0) with (S754_zero false).
  destruct a as [sa | sa | | sa ma ea], b as [sb | sb | | sb mb eb], zero_nan;
    try destruct sa; try destruct sb; simpl;
    intros Ha Hb; try reflexivity; discriminate.
Qed.

Lemma isnone_add_closed_witness :
  (spsparse.isnone dbl_0 true = true /\ spsparse.isnone NaN true = true) /\
  spsparse.isnone (double_add dbl_0 NaN) true = true.
Proof.
  assert (Ha : spsparse.isnone dbl_0 true = true) by reflexivity.
  assert (Hb : spsparse.isnone NaN true = true) by reflexivity.
  split; [split; assumption | ].
  apply (isnone_add_closed dbl_0 NaN true Ha Hb).
Defined.
